(** * The MPC control loop front end (src/main.cpp)

    A shallow embedding of the telemetry handler of the MPC project: the
    socket.io frame inspection ([hasData]), the polynomial helpers
    ([polyeval], [polyfit]), the world-to-vehicle frame transform
    ([convertToCoordinates]) and the body of the [onMessage] handler.

    Modelling conventions.
    - A C++ [double] is a real number ([R]): arithmetic is exact, and rounding,
      infinities and NaN are outside the model.
    - [assert] is active (the build does not define NDEBUG): a failed
      assertion, like an uncaught exception, terminates the process.  This
      is the outcome [Terminated].
    - Code of other libraries (Eigen's Householder QR solve, the JSON parser)
      and of files that are not part of this development ([MPC::Solve],
      [MPC::getTimeInterval]) is taken as a parameter of the functions that
      call it.
    - [std::vector] and Eigen vectors are lists; an Eigen matrix is the list of
      its rows.  Lists are shorter than 2^31 elements, so that the [unsigned]
      and [int] loop counters of the source do not wrap. *)

From Stdlib Require Import String Ascii.
From Stdlib Require Import Reals Lra List ZArith Lia Bool.
Import ListNotations.

Local Open Scope R_scope.

(** ** Outcome of a computation that can hit an assertion *)

Inductive run (A : Type) : Type :=
| Done (a : A)
| Terminated.

Arguments Done {A} a.
Arguments Terminated {A}.

Definition bind {A B : Type} (m : run A) (k : A -> run B) : run B :=
  match m with
  | Done a => k a
  | Terminated => Terminated
  end.

Notation "x <- m ;; k" := (bind m (fun x => k))
  (at level 61, m at next level, right associativity).

(** [assert(b)] *)
Definition assert (b : bool) : run unit :=
  if b then Done tt else Terminated.

(** ** Vectors and matrices *)

Definition VectorXd := list R.
Definition MatrixXd := list (list R).

(** [v[i]] *)
Definition at_ (v : list R) (i : nat) : R := nth i v 0.

(** [m.row(i)] *)
Definition row (m : MatrixXd) (i : nat) : VectorXd := nth i m [].

(** ** Degrees and radians *)

Definition pi : R := PI.
Definition deg2rad (x : R) : R := x * pi / 180.
Definition rad2deg (x : R) : R := x * 180 / pi.

(** ** convertToCoordinates *)

(** The source fills column [i] of the 2 x len matrix [pathpoints] for
    [i = 0 .. len-1]; [pathpoints_row0] and [pathpoints_row1] are the two
    assignments of the loop body, for every [i]. *)
Definition pathpoints_row0 (x y psi : R) (ptsx ptsy : list R) : VectorXd :=
  map (fun i => cos psi * (at_ ptsx i - x) + sin psi * (at_ ptsy i - y))
      (seq 0 (length ptsx)).

Definition pathpoints_row1 (x y psi : R) (ptsx ptsy : list R) : VectorXd :=
  map (fun i => - sin psi * (at_ ptsx i - x) + cos psi * (at_ ptsy i - y))
      (seq 0 (length ptsx)).

Definition convertToCoordinates (x y psi : R) (ptsx ptsy : list R)
  : run MatrixXd :=
  _ <- assert (Nat.eqb (length ptsx) (length ptsy)) ;;
  Done [ pathpoints_row0 x y psi ptsx ptsy; pathpoints_row1 x y psi ptsx ptsy ].

(** Modelled from the spec: the inverse of the frame transform of a pose.
    The source has no such function; the spec names it in its round-trip
    property.  It rotates a local point by [+psi] and translates it by
    [(x, y)]. *)
Definition convertFromCoordinates (x y psi : R) (m : MatrixXd) : MatrixXd :=
  let lx := row m 0 in
  let ly := row m 1 in
  let len := length lx in
  [ map (fun i => x + (cos psi * at_ lx i - sin psi * at_ ly i)) (seq 0 len);
    map (fun i => y + (sin psi * at_ lx i + cos psi * at_ ly i)) (seq 0 len) ].

(** Euclidean distance between two points of the plane. *)
Definition dist2d (p q : R * R) : R :=
  sqrt (Rsqr (fst p - fst q) + Rsqr (snd p - snd q)).

(** Column [i] of a 2-row matrix, as a point. *)
Definition point (m : MatrixXd) (i : nat) : R * R :=
  (at_ (row m 0) i, at_ (row m 1) i).

(** ** fmod

    C's [fmod(x, y)] is exactly [x - n * y], where [n] is [x / y] with its
    fractional part truncated (rounded toward zero); the result is exact in
    floating point as well. *)

Definition Ztrunc (x : R) : Z :=
  if Rle_dec 0 x then Zfloor x else Zceil x.

Definition fmod (x y : R) : R := x - IZR (Ztrunc (x / y)) * y.

(** ** std::string operations

    A position is a [nat]; [std::string::npos] is [None]. *)

Module StdString.

Local Open Scope string_scope.

(** [s.find(pat)]: the first position where [pat] occurs in [s]. *)
Fixpoint find_at (pat s : string) (pos : nat) : option nat :=
  if prefix pat s then Some pos
  else match s with
       | EmptyString => None
       | String _ s' => find_at pat s' (S pos)
       end.

Definition find (s pat : string) : option nat := find_at pat s 0.

Fixpoint mem_char (c : ascii) (chars : string) : bool :=
  match chars with
  | EmptyString => false
  | String d chars' => Ascii.eqb c d || mem_char c chars'
  end.

(** [s.find_first_of(chars)]: the first position of a character of [chars]. *)
Fixpoint find_first_of_at (chars s : string) (pos : nat) : option nat :=
  match s with
  | EmptyString => None
  | String c s' =>
      if mem_char c chars then Some pos
      else find_first_of_at chars s' (S pos)
  end.

Definition find_first_of (s chars : string) : option nat :=
  find_first_of_at chars s 0.

(** [s.rfind(pat)]: the last position where [pat] occurs in [s]. *)
Fixpoint rfind_at (pat s : string) (pos : nat) : option nat :=
  let here := if prefix pat s then Some pos else None in
  match s with
  | EmptyString => here
  | String _ s' =>
      match rfind_at pat s' (S pos) with
      | Some i => Some i
      | None => here
      end
  end.

Definition rfind (s pat : string) : option nat := rfind_at pat s 0.

(** [size_t] arithmetic wraps modulo 2^64. *)
Definition size_t (z : Z) : Z := (z mod 2 ^ 64)%Z.

(** [s.substr(pos, count)] for [pos <= s.size()]: the characters from
    [pos], at most [count] of them and at most to the end of [s]. *)
Definition substr (s : string) (pos : nat) (count : Z) : string :=
  let rlen := Z.min count (Z.of_nat (String.length s) - Z.of_nat pos) in
  substring pos (Z.to_nat rlen) s.

(** [s] contains [pat] as a substring. *)
Definition contains (s pat : string) : Prop :=
  exists before after : string, s = before ++ pat ++ after.

End StdString.

(** ** hasData *)

Definition hasData (s : string) : string :=
  let found_null := StdString.find s "null" in
  let b1 := StdString.find_first_of s "[" in
  let b2 := StdString.rfind s "}]" in
  match found_null with
  | Some _ => ""%string
  | None =>
      match b1, b2 with
      | Some b1, Some b2 =>
          StdString.substr s b1
            (StdString.size_t (Z.of_nat b2 - Z.of_nat b1 + 2))
      | _, _ => ""%string
      end
  end.

(** ** polyeval *)

(** The loop of [polyeval], from index [i] on, with the accumulator
    [result]. *)
Fixpoint polyeval_loop (coeffs : list R) (x : R) (i : nat) (result : R) : R :=
  match coeffs with
  | [] => result
  | c :: rest => polyeval_loop rest x (S i) (result + c * x ^ i)
  end.

Definition polyeval (coeffs : VectorXd) (x : R) : R :=
  polyeval_loop coeffs x 0 0.

(** ** polyfit *)

(** Row [j] of the matrix [A]: [A(j,0) = 1] and
    [A(j,i+1) = A(j,i) * xvals(j)] for [i < order]. *)
Fixpoint polyfit_row_from (xj prev : R) (order : nat) : list R :=
  match order with
  | O => []
  | S k => prev * xj :: polyfit_row_from xj (prev * xj) k
  end.

Definition polyfit_row (xj : R) (order : nat) : list R :=
  1 :: polyfit_row_from xj 1 order.

Definition polyfit_matrix (xvals : VectorXd) (order : nat) : MatrixXd :=
  map (fun xj => polyfit_row xj order) xvals.

Section Polyfit.

(** [A.householderQr().solve(yvals)], of Eigen. *)
Variable householderQr_solve : MatrixXd -> VectorXd -> VectorXd.

Definition polyfit (xvals yvals : VectorXd) (order : Z) : run VectorXd :=
  _ <- assert (Nat.eqb (length xvals) (length yvals)) ;;
  _ <- assert ((1 <=? order)%Z
               && (order <=? Z.of_nat (length xvals) - 1)%Z) ;;
  Done (householderQr_solve (polyfit_matrix xvals (Z.to_nat order)) yvals).

End Polyfit.

(** ** The telemetry handler *)

(** The fields read from [j[1]]. *)
Record telemetry : Type := Telemetry {
  t_ptsx : list R;
  t_ptsy : list R;
  t_x : R;
  t_y : R;
  t_psi : R;
  t_speed : R;
  t_steering_angle : R;
  t_throttle : R
}.

(** The object [msgJson]. *)
Record steer_json : Type := SteerJson {
  steering_angle : R;
  throttle : R;
  mpc_x : list R;
  mpc_y : list R;
  next_x : list R;
  next_y : list R
}.

(** What [ws.send] is given: a literal text, or the steer event, whose text
    is the dump of [msgJson] between the event's brackets; it is kept as the
    object it prints. *)
Inductive ws_message : Type :=
| TextFrame (s : string)
| SteerFrame (msgJson : steer_json).

Definition dquote : string := String "034"%char EmptyString.

(** The text of the manual-driving event: 42[ 'manual' ,{}] with double
    quotes around the event's name. *)
Definition manual_msg : string :=
  ("42[" ++ dquote ++ "manual" ++ dquote ++ ",{}]")%string.

Definition Lf : R := 2.67.

(** The kinematic model over the time interval [dt] (the block that builds
    [state] in the handler), from the vehicle's own frame: position and heading
    are zero there. *)
Definition predicted_state (dt v steering_angle throttle cte epsi : R)
  : VectorXd :=
  let px_actual := v * dt in
  let py_actual := 0 in
  let psi_actual := - v * steering_angle * dt / Lf in
  let v_actual := v + throttle * dt in
  let cte_actual := cte + v * sin epsi * dt in
  let epsi_actual := epsi + psi_actual in
  [px_actual; py_actual; psi_actual; v_actual; cte_actual; epsi_actual].

(** The message built from the solver's answer. *)
Definition steer_message (solution : list R) : steer_json :=
  let steer_value := at_ solution 6 in
  let throttle_value := at_ solution 7 in
  let steer_value := steer_value / deg2rad 25 in
  let throttle_value := fmod throttle_value 1.0 in
  let mpc_x_vals := [] ++ [at_ solution 0] in
  let mpc_y_vals := [] ++ [at_ solution 1] in
  let next_x_vals := [] in
  let next_y_vals := [] in
  {| steering_angle := - steer_value;
     throttle := throttle_value;
     mpc_x := mpc_x_vals;
     mpc_y := mpc_y_vals;
     next_x := next_x_vals;
     next_y := next_y_vals |}.

Section Handler.

(** Eigen's QR solve, and the [MPC] object: [mpc.Solve(state, coeffs)] and
    [mpc.getTimeInterval()]. *)
Variable householderQr_solve : MatrixXd -> VectorXd -> VectorXd.
Variable mpc_Solve : VectorXd -> VectorXd -> list R.
Variable mpc_getTimeInterval : R.

(** [json::parse(s)] followed by [j[0].get<string>()], and the reads of the
    fields of [j[1]]; each can throw. *)
Variable json_event : string -> run string.
Variable json_telemetry : string -> run telemetry.

(** The handler up to the call of [mpc.Solve]: the arguments of the call. *)
Definition solver_input (t : telemetry) : run (VectorXd * VectorXd) :=
  pathpoints <- convertToCoordinates (t_x t) (t_y t) (t_psi t)
                                      (t_ptsx t) (t_ptsy t) ;;
  let xvals := row pathpoints 0 in
  let yvals := row pathpoints 1 in
  coeffs <- polyfit householderQr_solve xvals yvals 3 ;;
  let cte := at_ coeffs 0 in
  let epsi := - atan (at_ coeffs 1) in
  let dt := mpc_getTimeInterval in
  let state :=
    predicted_state dt (t_speed t) (t_steering_angle t) (t_throttle t)
                    cte epsi in
  Done (state, coeffs).

(** The branch [event == "telemetry"]. *)
Definition onTelemetry (t : telemetry) : run ws_message :=
  input <- solver_input t ;;
  let solution := mpc_Solve (fst input) (snd input) in
  Done (SteerFrame (steer_message solution)).

(** [sdata.size() > 2 && sdata[0] == '4' && sdata[1] == '2'] *)
Definition is_event (sdata : string) : bool :=
  (2 <? String.length sdata)%nat
  && match String.get 0 sdata, String.get 1 sdata with
     | Some c0, Some c1 => Ascii.eqb c0 "4" && Ascii.eqb c1 "2"
     | _, _ => false
     end.

(** The message handler: the text sent back, if any. *)
Definition onMessage (sdata : string) : run (option ws_message) :=
  if is_event sdata then
    let s := hasData sdata in
    if negb (String.eqb s "") then
      event <- json_event s ;;
      if String.eqb event "telemetry" then
        t <- json_telemetry s ;;
        msg <- onTelemetry t ;;
        Done (Some msg)
      else Done None
    else Done (Some (TextFrame manual_msg))
  else Done None.

End Handler.

(** The derivative of the polynomial that [polyeval_loop] sums, term by
    term: the term of index [i] contributes [c * i * x^(i-1)].  The source
    has no such function; it states what the handler's [coeffs[1]] stands
    for. *)
Fixpoint polyderiv_loop (coeffs : list R) (x : R) (i : nat) : R :=
  match coeffs with
  | [] => 0
  | c :: rest => c * (INR i * x ^ pred i) + polyderiv_loop rest x (S i)
  end.

Definition polyderiv (coeffs : VectorXd) (x : R) : R :=
  polyderiv_loop coeffs x 0.

(** ** Reference notions for the properties below

    These are not functions of the source: they are the mathematical
    objects its loops are compared with. *)

(** Horner's form of the polynomial with the coefficients [coeffs], lowest
    degree first. *)
Definition horner (coeffs : list R) (x : R) : R :=
  fold_right (fun c rest => c + x * rest) 0 coeffs.

(** The product of a matrix row with a column vector. *)
Fixpoint dot (u v : list R) : R :=
  match u, v with
  | a :: u', b :: v' => a * b + dot u' v'
  | _, _ => 0
  end.

(** * Properties *)

Section ListFacts.

Lemma nth_map_seq (f : nat -> R) (n i : nat) :
  (i < n)%nat -> nth i (map f (seq 0 n)) 0 = f i.
Proof.
  intro Hi.
  rewrite (nth_indep _ 0 (f 0%nat)) by (rewrite length_map, length_seq; exact Hi).
  rewrite (map_nth f (seq 0 n) 0%nat i), seq_nth by exact Hi.
  reflexivity.
Qed.

Lemma list_eq_by_at (l l' : list R) :
  length l = length l' ->
  (forall i, (i < length l)%nat -> at_ l i = at_ l' i) ->
  l = l'.
Proof.
  intros Hlen Hnth. apply (nth_ext l l' 0 0 Hlen). exact Hnth.
Qed.

End ListFacts.

Section FrameTransform.

Variables x y psi : R.
Variables ptsx ptsy : list R.

Lemma convertToCoordinates_done :
  length ptsx = length ptsy ->
  convertToCoordinates x y psi ptsx ptsy
  = Done [ pathpoints_row0 x y psi ptsx ptsy;
           pathpoints_row1 x y psi ptsx ptsy ].
Proof.
  intro same_size. unfold convertToCoordinates, assert.
  rewrite (proj2 (Nat.eqb_eq _ _) same_size). reflexivity.
Qed.

Lemma convertToCoordinates_size_mismatch :
  length ptsx <> length ptsy ->
  convertToCoordinates x y psi ptsx ptsy = Terminated.
Proof.
  intro Hne. unfold convertToCoordinates, assert.
  rewrite (proj2 (Nat.eqb_neq _ _) Hne). reflexivity.
Qed.

Lemma pathpoints_row0_at (i : nat) :
  (i < length ptsx)%nat ->
  at_ (pathpoints_row0 x y psi ptsx ptsy) i
  = cos psi * (at_ ptsx i - x) + sin psi * (at_ ptsy i - y).
Proof. intro Hi. unfold at_ at 1, pathpoints_row0. now rewrite nth_map_seq. Qed.

Lemma pathpoints_row1_at (i : nat) :
  (i < length ptsx)%nat ->
  at_ (pathpoints_row1 x y psi ptsx ptsy) i
  = - sin psi * (at_ ptsx i - x) + cos psi * (at_ ptsy i - y).
Proof. intro Hi. unfold at_ at 1, pathpoints_row1. now rewrite nth_map_seq. Qed.

Lemma pathpoints_row0_length :
  length (pathpoints_row0 x y psi ptsx ptsy) = length ptsx.
Proof. unfold pathpoints_row0. now rewrite length_map, length_seq. Qed.

Lemma pathpoints_row1_length :
  length (pathpoints_row1 x y psi ptsx ptsy) = length ptsx.
Proof. unfold pathpoints_row1. now rewrite length_map, length_seq. Qed.

End FrameTransform.

Section FrameAlgebra.

Variables x y psi : R.
Variables ptsx ptsy : list R.

Lemma rotate_back_x (wx wy : R) :
  x + (cos psi * (cos psi * (wx - x) + sin psi * (wy - y))
       - sin psi * (- sin psi * (wx - x) + cos psi * (wy - y))) = wx.
Proof.
  pose proof (sin2_cos2 psi) as Hsc. unfold Rsqr in Hsc.
  replace (x + _) with (x + (sin psi * sin psi + cos psi * cos psi) * (wx - x))
    by ring.
  rewrite Hsc. ring.
Qed.

Lemma rotate_back_y (wx wy : R) :
  y + (sin psi * (cos psi * (wx - x) + sin psi * (wy - y))
       + cos psi * (- sin psi * (wx - x) + cos psi * (wy - y))) = wy.
Proof.
  pose proof (sin2_cos2 psi) as Hsc. unfold Rsqr in Hsc.
  replace (y + _) with (y + (sin psi * sin psi + cos psi * cos psi) * (wy - y))
    by ring.
  rewrite Hsc. ring.
Qed.

Lemma rotation_keeps_norm (dx dy : R) :
  Rsqr (cos psi * dx + sin psi * dy) + Rsqr (- sin psi * dx + cos psi * dy)
  = Rsqr dx + Rsqr dy.
Proof.
  pose proof (sin2_cos2 psi) as Hsc. unfold Rsqr in *.
  replace (_ + _)
    with ((sin psi * sin psi + cos psi * cos psi) * (dx * dx + dy * dy))
    by ring.
  rewrite Hsc. ring.
Qed.

Lemma convertFromCoordinates_pathpoints :
  length ptsx = length ptsy ->
  convertFromCoordinates x y psi
    [ pathpoints_row0 x y psi ptsx ptsy; pathpoints_row1 x y psi ptsx ptsy ]
  = [ ptsx; ptsy ].
Proof.
  intro same_size. unfold convertFromCoordinates, row. simpl nth.
  rewrite pathpoints_row0_length.
  f_equal; [ | f_equal ].
  - apply list_eq_by_at.
    + now rewrite length_map, length_seq.
    + intros i Hi. rewrite length_map, length_seq in Hi.
      unfold at_ at 1. rewrite nth_map_seq by exact Hi.
      rewrite pathpoints_row0_at, pathpoints_row1_at by exact Hi.
      apply rotate_back_x.
  - apply list_eq_by_at.
    + now rewrite length_map, length_seq.
    + intros i Hi. rewrite length_map, length_seq in Hi.
      unfold at_ at 1. rewrite nth_map_seq by exact Hi.
      rewrite pathpoints_row0_at, pathpoints_row1_at by exact Hi.
      apply rotate_back_y.
Qed.

Lemma pathpoints_dist (i j : nat) :
  (i < length ptsx)%nat -> (j < length ptsx)%nat ->
  dist2d
    (point [ pathpoints_row0 x y psi ptsx ptsy;
             pathpoints_row1 x y psi ptsx ptsy ] i)
    (point [ pathpoints_row0 x y psi ptsx ptsy;
             pathpoints_row1 x y psi ptsx ptsy ] j)
  = dist2d (at_ ptsx i, at_ ptsy i) (at_ ptsx j, at_ ptsy j).
Proof.
  intros Hi Hj. unfold dist2d, point, row. simpl nth. simpl fst. simpl snd.
  rewrite !pathpoints_row0_at, !pathpoints_row1_at by assumption.
  f_equal.
  rewrite <- (rotation_keeps_norm (at_ ptsx i - at_ ptsx j)
                                  (at_ ptsy i - at_ ptsy j)).
  f_equal; f_equal; ring.
Qed.

End FrameAlgebra.

(** C2: for every pose and every waypoint set (as many x as y values), the
    frame transform returns a matrix whose two rows have one entry per
    waypoint, in the order of the input, and whose column [i] is
    [cos psi * (wx - x) + sin psi * (wy - y)] over
    [- sin psi * (wx - x) + cos psi * (wy - y)] for waypoint [i = (wx, wy)]. *)
Theorem convertToCoordinates_rotates_each_point :
  forall (x y psi : R) (ptsx ptsy : list R),
    length ptsx = length ptsy ->
    exists m : MatrixXd,
      convertToCoordinates x y psi ptsx ptsy = Done m
      /\ length m = 2%nat
      /\ length (row m 0) = length ptsx
      /\ length (row m 1) = length ptsx
      /\ forall i : nat, (i < length ptsx)%nat ->
           at_ (row m 0) i
           = cos psi * (at_ ptsx i - x) + sin psi * (at_ ptsy i - y)
           /\ at_ (row m 1) i
              = - sin psi * (at_ ptsx i - x) + cos psi * (at_ ptsy i - y).
Proof.
  intros x y psi ptsx ptsy same_size.
  eexists. split; [ apply convertToCoordinates_done; exact same_size | ].
  unfold row. simpl nth.
  repeat split.
  - apply pathpoints_row0_length.
  - apply pathpoints_row1_length.
  - now apply pathpoints_row0_at.
  - now apply pathpoints_row1_at.
Qed.

Lemma convertToCoordinates_rotates_each_point_witness :
  exists m : MatrixXd,
    convertToCoordinates 1 2 0 [3; 5] [4; 6] = Done m
    /\ length m = 2%nat
    /\ length (row m 0) = 2%nat
    /\ length (row m 1) = 2%nat
    /\ forall i : nat, (i < 2)%nat ->
         at_ (row m 0) i
         = cos 0 * (at_ [3; 5] i - 1) + sin 0 * (at_ [4; 6] i - 2)
         /\ at_ (row m 1) i
            = - sin 0 * (at_ [3; 5] i - 1) + cos 0 * (at_ [4; 6] i - 2).
Proof.
  apply (convertToCoordinates_rotates_each_point 1 2 0 [3; 5] [4; 6]).
  reflexivity.
Defined.

(** C7: for every pose and every waypoint set, transforming the set into the
    vehicle's frame and applying the inverse transform of the same pose to
    the result gives back the set (in exact arithmetic). *)
Theorem frame_transform_round_trip :
  forall (x y psi : R) (ptsx ptsy : list R),
    length ptsx = length ptsy ->
    exists m : MatrixXd,
      convertToCoordinates x y psi ptsx ptsy = Done m
      /\ convertFromCoordinates x y psi m = [ ptsx; ptsy ].
Proof.
  intros x y psi ptsx ptsy same_size.
  eexists. split; [ apply convertToCoordinates_done; exact same_size | ].
  apply convertFromCoordinates_pathpoints. exact same_size.
Qed.

Lemma frame_transform_round_trip_witness :
  exists m : MatrixXd,
    convertToCoordinates 1 2 (PI / 6) [3; 5; 8] [4; 6; 7] = Done m
    /\ convertFromCoordinates 1 2 (PI / 6) m = [ [3; 5; 8]; [4; 6; 7] ].
Proof.
  apply (frame_transform_round_trip 1 2 (PI / 6) [3; 5; 8] [4; 6; 7]).
  reflexivity.
Defined.

(** C10: for every pose and every two waypoints of the input set, the
    distance between their images under the frame transform is the
    distance between the two waypoints (in exact arithmetic). *)
Theorem frame_transform_isometry :
  forall (x y psi : R) (ptsx ptsy : list R),
    length ptsx = length ptsy ->
    exists m : MatrixXd,
      convertToCoordinates x y psi ptsx ptsy = Done m
      /\ forall i j : nat,
           (i < length ptsx)%nat -> (j < length ptsx)%nat ->
           dist2d (point m i) (point m j)
           = dist2d (at_ ptsx i, at_ ptsy i) (at_ ptsx j, at_ ptsy j).
Proof.
  intros x y psi ptsx ptsy same_size.
  eexists. split; [ apply convertToCoordinates_done; exact same_size | ].
  intros i j Hi Hj. now apply pathpoints_dist.
Qed.

Lemma frame_transform_isometry_witness :
  exists m : MatrixXd,
    convertToCoordinates 1 2 (PI / 6) [3; 5; 8] [4; 6; 7] = Done m
    /\ forall i j : nat,
         (i < 3)%nat -> (j < 3)%nat ->
         dist2d (point m i) (point m j)
         = dist2d (at_ [3; 5; 8] i, at_ [4; 6; 7] i)
                  (at_ [3; 5; 8] j, at_ [4; 6; 7] j).
Proof.
  apply (frame_transform_isometry 1 2 (PI / 6) [3; 5; 8] [4; 6; 7]).
  reflexivity.
Defined.

Section Polynomial.

Lemma polyeval_loop_at_0 (coeffs : list R) (i : nat) (result : R) :
  polyeval_loop coeffs 0 (S i) result = result.
Proof.
  revert i result. induction coeffs as [ | c rest IH ]; intros i result.
  - reflexivity.
  - simpl polyeval_loop. rewrite IH. rewrite Rmult_0_l. ring.
Qed.

Lemma polyeval_at_0 (coeffs : VectorXd) :
  polyeval coeffs 0 = at_ coeffs 0.
Proof.
  unfold polyeval, at_. destruct coeffs as [ | c rest ].
  - reflexivity.
  - simpl polyeval_loop. rewrite polyeval_loop_at_0. simpl. ring.
Qed.

Lemma polyderiv_loop_at_0 (coeffs : list R) (i : nat) :
  polyderiv_loop coeffs 0 (S (S i)) = 0.
Proof.
  revert i. induction coeffs as [ | c rest IH ]; intro i.
  - reflexivity.
  - simpl polyderiv_loop. rewrite IH. simpl pow. ring.
Qed.

Lemma polyderiv_at_0 (coeffs : VectorXd) :
  polyderiv coeffs 0 = at_ coeffs 1.
Proof.
  unfold polyderiv, at_. destruct coeffs as [ | c0 [ | c1 rest ] ].
  - reflexivity.
  - simpl. ring.
  - simpl polyderiv_loop. rewrite polyderiv_loop_at_0. simpl. ring.
Qed.

(** [polyderiv_loop] is the derivative of [polyeval_loop], whatever the
    accumulator the loop starts from. *)
Lemma polyeval_loop_derivable (coeffs : list R) :
  forall (i : nat) (acc : R -> R) (x0 l : R),
    derivable_pt_lim acc x0 l ->
    derivable_pt_lim (fun x => polyeval_loop coeffs x i (acc x)) x0
                     (l + polyderiv_loop coeffs x0 i).
Proof.
  induction coeffs as [ | c rest IH ]; intros i acc x0 l Hacc.
  - simpl. rewrite Rplus_0_r. exact Hacc.
  - simpl polyeval_loop. simpl polyderiv_loop.
    rewrite <- Rplus_assoc.
    apply (IH (S i) (fun x => acc x + c * x ^ i)).
    apply (derivable_pt_lim_plus acc (fun x => c * x ^ i)); [ exact Hacc | ].
    apply (derivable_pt_lim_scal (fun x => x ^ i)).
    apply derivable_pt_lim_pow.
Qed.

Lemma polyeval_derivable (coeffs : VectorXd) (x0 : R) :
  derivable_pt_lim (polyeval coeffs) x0 (polyderiv coeffs x0).
Proof.
  unfold polyderiv.
  replace (polyderiv_loop coeffs x0 0) with (0 + polyderiv_loop coeffs x0 0)
    by ring.
  apply (polyeval_loop_derivable coeffs 0 (fun _ => 0) x0 0).
  apply (derivable_pt_lim_const 0).
Qed.

End Polynomial.

Section PolyfitFacts.

Variable householderQr_solve : MatrixXd -> VectorXd -> VectorXd.

Lemma polyfit_done (xvals yvals : VectorXd) (order : Z) :
  length xvals = length yvals ->
  (1 <= order <= Z.of_nat (length xvals) - 1)%Z ->
  polyfit householderQr_solve xvals yvals order
  = Done (householderQr_solve (polyfit_matrix xvals (Z.to_nat order)) yvals).
Proof.
  intros same_size [Hlo Hhi]. unfold polyfit, assert.
  rewrite (proj2 (Nat.eqb_eq _ _) same_size).
  rewrite (proj2 (Z.leb_le _ _) Hlo), (proj2 (Z.leb_le _ _) Hhi).
  reflexivity.
Qed.

Lemma polyfit_too_few (xvals yvals : VectorXd) (order : Z) :
  (Z.of_nat (length xvals) - 1 < order)%Z ->
  polyfit householderQr_solve xvals yvals order = Terminated.
Proof.
  intro Hfew. unfold polyfit, assert.
  destruct (Nat.eqb (length xvals) (length yvals)); [ | reflexivity ].
  rewrite (proj2 (Z.leb_gt _ _) Hfew), andb_false_r. reflexivity.
Qed.

Lemma polyfit_row_from_at (xj prev : R) (order i : nat) :
  (i < order)%nat ->
  at_ (polyfit_row_from xj prev order) i = prev * xj ^ S i.
Proof.
  revert prev i. induction order as [ | k IH ]; intros prev i Hi; [ lia | ].
  destruct i as [ | i ].
  - unfold at_. simpl. ring.
  - unfold at_ in *. simpl nth. rewrite IH by lia. simpl. ring.
Qed.

(** The matrix of the fit is the Vandermonde matrix of the samples. *)
Lemma polyfit_row_at (xj : R) (order i : nat) :
  (i <= order)%nat -> at_ (polyfit_row xj order) i = xj ^ i.
Proof.
  intro Hi. unfold polyfit_row. destruct i as [ | i ].
  - reflexivity.
  - unfold at_. simpl nth. fold (at_ (polyfit_row_from xj 1 order) i).
    rewrite polyfit_row_from_at by lia. ring.
Qed.

Lemma polyfit_matrix_row (xvals : VectorXd) (order j : nat) :
  (j < length xvals)%nat ->
  row (polyfit_matrix xvals order) j = polyfit_row (at_ xvals j) order.
Proof.
  intro Hj. unfold row, polyfit_matrix, at_.
  rewrite (nth_indep _ [] (polyfit_row 0 order))
    by (rewrite length_map; exact Hj).
  apply (map_nth (fun xj => polyfit_row xj order)).
Qed.

End PolyfitFacts.

Section HandlerFacts.

Variable householderQr_solve : MatrixXd -> VectorXd -> VectorXd.
Variable mpc_Solve : VectorXd -> VectorXd -> list R.
Variable mpc_getTimeInterval : R.

Lemma solver_input_done (t : telemetry) :
  length (t_ptsx t) = length (t_ptsy t) ->
  (4 <= length (t_ptsx t))%nat ->
  let pathpoints :=
    [ pathpoints_row0 (t_x t) (t_y t) (t_psi t) (t_ptsx t) (t_ptsy t);
      pathpoints_row1 (t_x t) (t_y t) (t_psi t) (t_ptsx t) (t_ptsy t) ] in
  let coeffs :=
    householderQr_solve (polyfit_matrix (row pathpoints 0) 3)
                        (row pathpoints 1) in
  polyfit householderQr_solve (row pathpoints 0) (row pathpoints 1) 3
  = Done coeffs
  /\ solver_input householderQr_solve mpc_getTimeInterval t
     = Done (predicted_state mpc_getTimeInterval (t_speed t)
               (t_steering_angle t) (t_throttle t)
               (at_ coeffs 0) (- atan (at_ coeffs 1)),
             coeffs).
Proof.
  intros same_size Hfour pathpoints coeffs.
  assert (Hfit : polyfit householderQr_solve (row pathpoints 0)
                   (row pathpoints 1) 3 = Done coeffs).
  { unfold coeffs. change 3%nat with (Z.to_nat 3). apply polyfit_done.
    - unfold pathpoints, row. simpl nth.
      now rewrite pathpoints_row0_length, pathpoints_row1_length.
    - unfold pathpoints, row. simpl nth. rewrite pathpoints_row0_length. lia. }
  split; [ exact Hfit | ].
  unfold solver_input.
  rewrite convertToCoordinates_done by exact same_size.
  unfold bind at 1. fold pathpoints. rewrite Hfit. reflexivity.
Qed.

Lemma solver_input_too_few (t : telemetry) :
  (length (t_ptsx t) < 4)%nat ->
  solver_input householderQr_solve mpc_getTimeInterval t = Terminated.
Proof.
  intro Hfew. unfold solver_input.
  destruct (Nat.eq_dec (length (t_ptsx t)) (length (t_ptsy t))) as [ Heq | Hne ].
  - rewrite convertToCoordinates_done by exact Heq.
    unfold bind at 1. rewrite polyfit_too_few; [ reflexivity | ].
    unfold row. simpl nth. rewrite pathpoints_row0_length. lia.
  - rewrite convertToCoordinates_size_mismatch by exact Hne. reflexivity.
Qed.

End HandlerFacts.

(** C1: in every telemetry cycle that reaches the optimizer (as many x as y
    waypoints, at least four of them), the state handed to [mpc.Solve] is
    the kinematic model applied over the interval [dt] to the measured
    speed, steering angle and throttle:
    [v * dt], [0], [heading' = - v * steer * dt / Lf], [v + throttle * dt],
    [cte + v * sin epsi * dt], [epsi + heading'],
    where [cte] is the fitted polynomial at 0 and [epsi] is minus the
    arctangent of the derivative of the fitted polynomial at 0. *)
Theorem solver_state_is_latency_compensated :
  forall (householderQr_solve : MatrixXd -> VectorXd -> VectorXd)
         (mpc_Solve : VectorXd -> VectorXd -> list R)
         (dt : R) (t : telemetry),
    length (t_ptsx t) = length (t_ptsy t) ->
    (4 <= length (t_ptsx t))%nat ->
    exists (pathpoints : MatrixXd) (coeffs state : VectorXd)
           (slope cte epsi heading' : R),
      convertToCoordinates (t_x t) (t_y t) (t_psi t) (t_ptsx t) (t_ptsy t)
      = Done pathpoints
      /\ polyfit householderQr_solve (row pathpoints 0) (row pathpoints 1) 3
         = Done coeffs
      /\ cte = polyeval coeffs 0
      /\ derivable_pt_lim (polyeval coeffs) 0 slope
      /\ epsi = - atan slope
      /\ heading' = - t_speed t * t_steering_angle t * dt / Lf
      /\ state = [ t_speed t * dt;
                   0;
                   heading';
                   t_speed t + t_throttle t * dt;
                   cte + t_speed t * sin epsi * dt;
                   epsi + heading' ]
      /\ solver_input householderQr_solve dt t = Done (state, coeffs)
      /\ onTelemetry householderQr_solve mpc_Solve dt t
         = Done (SteerFrame (steer_message (mpc_Solve state coeffs))).
Proof.
  intros qr Solve dt t same_size Hfour.
  destruct (solver_input_done qr dt t same_size Hfour) as [Hfit Hinput].
  cbv zeta in Hfit, Hinput.
  set (pathpoints :=
         [ pathpoints_row0 (t_x t) (t_y t) (t_psi t) (t_ptsx t) (t_ptsy t);
           pathpoints_row1 (t_x t) (t_y t) (t_psi t) (t_ptsx t) (t_ptsy t) ])
    in *.
  set (coeffs := qr (polyfit_matrix (row pathpoints 0) 3) (row pathpoints 1))
    in *.
  exists pathpoints, coeffs.
  eexists. exists (polyderiv coeffs 0). do 3 eexists.
  split; [ apply convertToCoordinates_done; exact same_size | ].
  split; [ exact Hfit | ].
  split; [ reflexivity | ].
  split; [ apply polyeval_derivable | ].
  split; [ reflexivity | ].
  split; [ reflexivity | ].
  split; [ reflexivity | ].
  rewrite polyeval_at_0, polyderiv_at_0.
  split; [ exact Hinput | ].
  unfold onTelemetry. rewrite Hinput. reflexivity.
Qed.

Lemma solver_state_is_latency_compensated_witness :
  exists state coeffs : VectorXd,
    solver_input (fun _ _ => [1; 2; 3; 4]) 0.1
      (Telemetry [0; 1; 2; 3] [0; 0; 0; 0] 0 0 0 10 0 0)
    = Done (state, coeffs).
Proof.
  destruct (solver_state_is_latency_compensated
              (fun _ _ => [1; 2; 3; 4]) (fun _ _ => []) 0.1
              (Telemetry [0; 1; 2; 3] [0; 0; 0; 0] 0 0 0 10 0 0)
              eq_refl (le_n 4))
    as (pathpoints & coeffs & state & slope & cte & epsi & heading' & H).
  exists state, coeffs. apply H.
Defined.

(** C8: with a steering angle of 0, a throttle of 0 and an interval of 0, the
    kinematic step leaves the state of the vehicle in its own frame
    (position 0, 0, heading 0, speed [v], errors [cte] and [epsi]) as it is. *)
Theorem predicted_state_zero_interval :
  forall v cte epsi : R,
    predicted_state 0 v 0 0 cte epsi = [0; 0; 0; v; cte; epsi].
Proof.
  intros v cte epsi. unfold predicted_state, Lf.
  repeat (f_equal; try lra).
Qed.

(** C6, as the code has it: a waypoint set of fewer than four points (so
    every set of fewer than two) stops the cycle at an assertion, of
    [polyfit] or of [convertToCoordinates]: the solver is not called, nothing
    is sent, and the process terminates. *)
Theorem short_waypoint_set_terminates :
  forall (householderQr_solve : MatrixXd -> VectorXd -> VectorXd)
         (mpc_Solve : VectorXd -> VectorXd -> list R)
         (dt : R) (t : telemetry),
    (length (t_ptsx t) < 4)%nat ->
    solver_input householderQr_solve dt t = Terminated
    /\ onTelemetry householderQr_solve mpc_Solve dt t = Terminated.
Proof.
  intros qr Solve dt t Hfew.
  pose proof (solver_input_too_few qr dt t Hfew) as Hstop.
  split; [ exact Hstop | ].
  unfold onTelemetry. rewrite Hstop. reflexivity.
Qed.

Lemma short_waypoint_set_terminates_witness :
  onTelemetry (fun _ _ => [1; 2; 3; 4]) (fun _ _ => []) 0.1
    (Telemetry [5] [7] 0 0 0 10 0 0)
  = Terminated.
Proof.
  apply (short_waypoint_set_terminates
           (fun _ _ => [1; 2; 3; 4]) (fun _ _ => []) 0.1
           (Telemetry [5] [7] 0 0 0 10 0 0)).
  simpl. lia.
Defined.

(** C6 fails as stated: for the one-point waypoint set [(5, 7)] no message
    is sent, whatever the solver and the QR solve answer, so no actuation,
    last-known-good or other, is emitted. *)
Lemma one_waypoint_sends_nothing :
  ~ (exists (householderQr_solve : MatrixXd -> VectorXd -> VectorXd)
            (mpc_Solve : VectorXd -> VectorXd -> list R)
            (dt : R) (msg : ws_message),
        onTelemetry householderQr_solve mpc_Solve dt
          (Telemetry [5] [7] 0 0 0 10 0 0)
        = Done msg).
Proof.
  intros (qr & Solve & dt & msg & Hsent).
  unfold onTelemetry, solver_input, convertToCoordinates, polyfit in Hsent.
  simpl in Hsent. discriminate Hsent.
Qed.

(** C4, as the code has it: [polyfit] has no failure for degenerate samples.
    For every sample set that passes its two assertions (as many x as y
    values, and [1 <= order <= size - 1]) it returns what the QR solve
    answers for the Vandermonde matrix of the x values ([A(j,i) = x_j ^ i])
    and the y values; when all x values are identical all rows of that
    matrix are equal, and the answer of the solve is returned all the
    same. *)
Theorem polyfit_returns_the_solve_unchecked :
  forall (householderQr_solve : MatrixXd -> VectorXd -> VectorXd)
         (xvals yvals : VectorXd) (order : Z),
    length xvals = length yvals ->
    (1 <= order <= Z.of_nat (length xvals) - 1)%Z ->
    let A := polyfit_matrix xvals (Z.to_nat order) in
    polyfit householderQr_solve xvals yvals order
    = Done (householderQr_solve A yvals)
    /\ (forall j i : nat,
          (j < length xvals)%nat -> (i <= Z.to_nat order)%nat ->
          at_ (row A j) i = at_ xvals j ^ i)
    /\ ((forall j k : nat,
           (j < length xvals)%nat -> (k < length xvals)%nat ->
           at_ xvals j = at_ xvals k) ->
        forall j k : nat,
          (j < length xvals)%nat -> (k < length xvals)%nat ->
          row A j = row A k).
Proof.
  intros qr xvals yvals order same_size Horder A.
  split; [ apply polyfit_done; assumption | ].
  split.
  - intros j i Hj Hi. unfold A. rewrite polyfit_matrix_row by exact Hj.
    apply polyfit_row_at. exact Hi.
  - intros Hsame j k Hj Hk. unfold A.
    rewrite !polyfit_matrix_row by assumption.
    now rewrite (Hsame j k Hj Hk).
Qed.

Lemma polyfit_returns_the_solve_unchecked_witness :
  polyfit (fun _ _ => [0; 0; 0; 0]) [1; 1; 1; 1] [0; 1; 2; 3] 3
  = Done [0; 0; 0; 0].
Proof.
  refine (proj1 (polyfit_returns_the_solve_unchecked
                   (fun _ _ => [0; 0; 0; 0]) [1; 1; 1; 1] [0; 1; 2; 3] 3 _ _)).
  - reflexivity.
  - simpl. lia.
Defined.

(** C4 fails as stated: for the four samples with the same x value 1, the
    fit does not fail, whatever the QR solve answers. *)
Lemma identical_x_fit_does_not_fail :
  ~ (exists householderQr_solve : MatrixXd -> VectorXd -> VectorXd,
        polyfit householderQr_solve [1; 1; 1; 1] [0; 1; 2; 3] 3
        = Terminated).
Proof.
  intros (qr & Hfail). unfold polyfit in Hfail. simpl in Hfail.
  discriminate Hfail.
Qed.

Section Fmod.

Lemma Ztrunc_small (t : R) : -1 < t < 1 -> Ztrunc t = 0%Z.
Proof.
  intros [Hlo Hhi]. unfold Ztrunc. destruct (Rle_dec 0 t) as [ Hpos | Hneg ].
  - apply Zfloor_eq. simpl. lra.
  - apply Zceil_eq. simpl. lra.
Qed.

Lemma Ztrunc_bound (t : R) : -1 < t - IZR (Ztrunc t) < 1.
Proof.
  unfold Ztrunc. destruct (Rle_dec 0 t) as [ Hpos | Hneg ].
  - pose proof (Zfloor_bound t). lra.
  - pose proof (Zceil_bound t). lra.
Qed.

Lemma fmod_1 (t : R) : fmod t 1.0 = t - IZR (Ztrunc t).
Proof.
  unfold fmod. replace (t / 1.0) with t by lra. lra.
Qed.

Lemma fmod_1_range (t : R) : -1 < fmod t 1.0 < 1.
Proof. rewrite fmod_1. apply Ztrunc_bound. Qed.

Lemma fmod_1_small (t : R) : -1 < t < 1 -> fmod t 1.0 = t.
Proof.
  intro Ht. rewrite fmod_1, (Ztrunc_small t Ht). simpl. lra.
Qed.

Lemma Ztrunc_three_halves : Ztrunc 1.5 = 1%Z.
Proof.
  unfold Ztrunc. destruct (Rle_dec 0 1.5) as [ _ | Hneg ]; [ | lra ].
  apply Zfloor_eq. simpl. lra.
Qed.

Lemma steer_message_throttle (solution : list R) :
  throttle (steer_message solution) = fmod (at_ solution 7) 1.0.
Proof. reflexivity. Qed.

End Fmod.

(** C3, as the code has it: the throttle of the outbound steer message is
    the solver's throttle [t] reduced by [fmod(., 1.0)], that is [t] minus its
    integer part (rounded toward zero): it lies strictly between -1 and 1
    for every [t], and it is [t] itself when [t] lies strictly between -1
    and 1. *)
Theorem steer_message_throttle_in_range :
  forall solution : list R,
    let t := at_ solution 7 in
    throttle (steer_message solution) = t - IZR (Ztrunc t)
    /\ (-1 < throttle (steer_message solution) < 1)
    /\ (-1 < t < 1 -> throttle (steer_message solution) = t).
Proof.
  intros solution t. rewrite steer_message_throttle. fold t.
  split; [ apply fmod_1 | split ].
  - apply fmod_1_range.
  - apply fmod_1_small.
Qed.

Lemma steer_message_throttle_in_range_witness :
  (-1 < 0.25 < 1)
  /\ throttle (steer_message [0; 0; 0; 0; 0; 0; 0; 0.25]) = 0.25.
Proof.
  assert (Hin : -1 < 0.25 < 1) by lra.
  split; [ exact Hin | ].
  exact (proj2 (proj2 (steer_message_throttle_in_range
                         [0; 0; 0; 0; 0; 0; 0; 0.25]))
               Hin).
Defined.

(** C3 fails as stated: a solver throttle of 1.5 is sent as 0.5, not as the
    bound 1. *)
Lemma throttle_above_one_is_not_saturated :
  throttle (steer_message [0; 0; 0; 0; 0; 0; 0; 1.5]) = 0.5
  /\ throttle (steer_message [0; 0; 0; 0; 0; 0; 0; 1.5]) <> 1.
Proof.
  assert (Hval : throttle (steer_message [0; 0; 0; 0; 0; 0; 0; 1.5]) = 0.5).
  { rewrite steer_message_throttle. unfold at_. simpl nth.
    rewrite fmod_1, Ztrunc_three_halves. lra. }
  split; [ exact Hval | ]. rewrite Hval. lra.
Qed.

(** C5: what the steer message carries for display, for every answer of the
    solver: one predicted point, the first two entries of the answer, and
    no reference point. *)
Theorem steer_message_display_points :
  forall solution : list R,
    mpc_x (steer_message solution) = [at_ solution 0]
    /\ mpc_y (steer_message solution) = [at_ solution 1]
    /\ next_x (steer_message solution) = []
    /\ next_y (steer_message solution) = [].
Proof. intro solution. repeat split. Qed.

Section Frames.

Local Open Scope string_scope.

Lemma prefix_append (pat rest : string) : prefix pat (pat ++ rest) = true.
Proof.
  induction pat as [ | c pat IH ].
  - destruct rest; reflexivity.
  - simpl. destruct (ascii_dec c c) as [ _ | Hne ]; [ exact IH | ].
    now elim Hne.
Qed.

Lemma find_at_unfold (pat s : string) (pos : nat) :
  StdString.find_at pat s pos
  = if prefix pat s then Some pos
    else match s with
         | EmptyString => None
         | String _ s' => StdString.find_at pat s' (S pos)
         end.
Proof. destruct s; reflexivity. Qed.

Lemma find_at_occurrence (pat before after : string) :
  forall pos : nat,
    exists i : nat, StdString.find_at pat (before ++ pat ++ after) pos = Some i.
Proof.
  induction before as [ | c before IH ]; intro pos.
  - exists pos. simpl append. now rewrite find_at_unfold, prefix_append.
  - rewrite find_at_unfold. simpl append.
    destruct (prefix pat (String c (before ++ pat ++ after))).
    + now exists pos.
    + apply IH.
Qed.

Lemma find_contains (s pat : string) :
  StdString.contains s pat -> exists i : nat, StdString.find s pat = Some i.
Proof.
  intros (before & after & Hs). subst s. unfold StdString.find.
  apply find_at_occurrence.
Qed.

Lemma hasData_null (s : string) :
  StdString.contains s "null" -> hasData s = "".
Proof.
  intro Hnull. destruct (find_contains s "null" Hnull) as [i Hi].
  unfold hasData. rewrite Hi. reflexivity.
Qed.

Variable householderQr_solve : MatrixXd -> VectorXd -> VectorXd.
Variable mpc_Solve : VectorXd -> VectorXd -> list R.
Variable mpc_getTimeInterval : R.
Variable json_event : string -> run string.
Variable json_telemetry : string -> run telemetry.

Lemma onMessage_no_data (sdata : string) :
  is_event sdata = true ->
  hasData sdata = "" ->
  onMessage householderQr_solve mpc_Solve mpc_getTimeInterval
            json_event json_telemetry sdata
  = Done (Some (TextFrame manual_msg)).
Proof.
  intros Hevent Hnone. unfold onMessage. rewrite Hevent, Hnone. reflexivity.
Qed.

Lemma onMessage_not_event (sdata : string) :
  is_event sdata = false ->
  onMessage householderQr_solve mpc_Solve mpc_getTimeInterval
            json_event json_telemetry sdata
  = Done None.
Proof. intro Hevent. unfold onMessage. rewrite Hevent. reflexivity. Qed.

Lemma onMessage_telemetry (sdata : string) (t : telemetry) :
  is_event sdata = true ->
  hasData sdata <> "" ->
  json_event (hasData sdata) = Done "telemetry" ->
  json_telemetry (hasData sdata) = Done t ->
  onMessage householderQr_solve mpc_Solve mpc_getTimeInterval
            json_event json_telemetry sdata
  = (msg <- onTelemetry householderQr_solve mpc_Solve mpc_getTimeInterval t ;;
     Done (Some msg)).
Proof.
  intros Hevent Hdata Hname Hfields. unfold onMessage.
  rewrite Hevent, (proj2 (String.eqb_neq _ _) Hdata), Hname, Hfields.
  reflexivity.
Qed.

End Frames.

(** C9: for every inbound text that contains [null] anywhere, [hasData]
    returns the empty string; so when the text is an event frame (longer than
    two characters and starting with 42) the handler answers it with the
    manual-driving text, whatever else the frame holds and without reading
    any payload. *)
Theorem null_frame_is_answered_manual :
  forall (householderQr_solve : MatrixXd -> VectorXd -> VectorXd)
         (mpc_Solve : VectorXd -> VectorXd -> list R)
         (dt : R)
         (json_event : string -> run string)
         (json_telemetry : string -> run telemetry)
         (sdata : string),
    StdString.contains sdata "null" ->
    hasData sdata = ""%string
    /\ (is_event sdata = true ->
        onMessage householderQr_solve mpc_Solve dt json_event json_telemetry
                  sdata
        = Done (Some (TextFrame manual_msg))).
Proof.
  intros qr Solve dt jevent jfields sdata Hnull.
  pose proof (hasData_null sdata Hnull) as Hnone.
  split; [ exact Hnone | ].
  intro Hevent. now apply onMessage_no_data.
Qed.

Lemma null_frame_is_answered_manual_witness :
  let sdata :=
    ("42[" ++ dquote ++ "telemetry" ++ dquote ++ ",{" ++ dquote ++ "x"
     ++ dquote ++ ":null," ++ dquote ++ "speed" ++ dquote ++ ":10}]")%string in
  hasData sdata = ""%string
  /\ onMessage (fun _ _ => [1; 2; 3; 4]) (fun _ _ => []) 0.1
               (fun _ => Done "telemetry"%string)
               (fun _ => Done (Telemetry [0; 1; 2; 3] [0; 0; 0; 0]
                                         0 0 0 10 0 0))
               sdata
     = Done (Some (TextFrame manual_msg)).
Proof.
  intro sdata.
  assert (Hnull : StdString.contains sdata "null").
  { exists ("42[" ++ dquote ++ "telemetry" ++ dquote ++ ",{" ++ dquote ++ "x"
            ++ dquote ++ ":")%string,
           ("," ++ dquote ++ "speed" ++ dquote ++ ":10}]")%string.
    reflexivity. }
  destruct (null_frame_is_answered_manual
              (fun _ _ => [1; 2; 3; 4]) (fun _ _ => []) 0.1
              (fun _ => Done "telemetry"%string)
              (fun _ => Done (Telemetry [0; 1; 2; 3] [0; 0; 0; 0]
                                        0 0 0 10 0 0))
              sdata Hnull)
    as [Hnone Hmanual].
  split; [ exact Hnone | ].
  apply Hmanual. reflexivity.
Defined.

(** * Further properties of the source *)

Section Angles.

Lemma deg2rad_25_pos : 0 < deg2rad 25.
Proof. unfold deg2rad, pi. pose proof PI_RGT_0. lra. Qed.

End Angles.

(** X1: [deg2rad] and [rad2deg] are inverse to each other. *)
Theorem deg2rad_rad2deg_inverse :
  forall x : R, rad2deg (deg2rad x) = x /\ deg2rad (rad2deg x) = x.
Proof.
  intro x. unfold rad2deg, deg2rad, pi. pose proof PI_neq0.
  split; field; assumption.
Qed.

Section PolynomialLoop.

Lemma polyeval_loop_horner (coeffs : list R) (x : R) :
  forall (i : nat) (result : R),
    polyeval_loop coeffs x i result = result + x ^ i * horner coeffs x.
Proof.
  induction coeffs as [ | c rest IH ]; intros i result.
  - simpl. ring.
  - simpl polyeval_loop. rewrite IH. simpl. ring.
Qed.

Lemma dot_polyfit_row_from (xj : R) (order : nat) :
  forall (prev : R) (coeffs : list R),
    (length coeffs <= order)%nat ->
    dot (polyfit_row_from xj prev order) coeffs = prev * xj * horner coeffs xj.
Proof.
  induction order as [ | k IH ]; intros prev coeffs Hlen.
  - destruct coeffs; [ simpl; ring | simpl in Hlen; lia ].
  - destruct coeffs as [ | c rest ]; [ simpl; ring | ].
    simpl in Hlen. simpl dot. rewrite IH by lia. simpl. ring.
Qed.

Lemma dot_polyfit_row (xj : R) (order : nat) (coeffs : list R) :
  (length coeffs <= S order)%nat ->
  dot (polyfit_row xj order) coeffs = horner coeffs xj.
Proof.
  intro Hlen. unfold polyfit_row. destruct coeffs as [ | c rest ].
  - reflexivity.
  - simpl in Hlen. simpl dot. rewrite dot_polyfit_row_from by lia.
    simpl. ring.
Qed.

End PolynomialLoop.

(** X2: the loop of [polyeval] computes the polynomial with the given
    coefficients, lowest degree first: its value is Horner's form, 0 for no
    coefficient, and [c0 + c1 x + c2 x^2 + c3 x^3] for the four coefficients
    of a cubic fit. *)
Theorem polyeval_is_the_polynomial :
  forall (coeffs : VectorXd) (x : R),
    polyeval coeffs x = horner coeffs x
    /\ polyeval [] x = 0
    /\ forall c0 c1 c2 c3 : R,
         polyeval [c0; c1; c2; c3] x
         = c0 + c1 * x + c2 * x ^ 2 + c3 * x ^ 3.
Proof.
  intros coeffs x. unfold polyeval. split; [ | split ].
  - rewrite polyeval_loop_horner. simpl. ring.
  - reflexivity.
  - intros c0 c1 c2 c3. simpl. ring.
Qed.

(** X3: the matrix that [polyfit] hands to the QR solve is the matrix of
    [polyeval] at the samples: for every coefficient vector of at most
    [order + 1] entries, row [j] times the vector is the polynomial with
    these coefficients evaluated at [xvals[j]]. *)
Theorem polyfit_matrix_times_coeffs :
  forall (xvals coeffs : VectorXd) (order j : nat),
    (j < length xvals)%nat ->
    (length coeffs <= S order)%nat ->
    dot (row (polyfit_matrix xvals order) j) coeffs
    = polyeval coeffs (at_ xvals j).
Proof.
  intros xvals coeffs order j Hj Hlen.
  rewrite polyfit_matrix_row by exact Hj.
  rewrite dot_polyfit_row by exact Hlen.
  unfold polyeval. rewrite polyeval_loop_horner. simpl. ring.
Qed.

Lemma polyfit_matrix_times_coeffs_witness :
  dot (row (polyfit_matrix [2; 3; 5; 7] 3) 1) [1; 0; 4; 1]
  = polyeval [1; 0; 4; 1] (at_ [2; 3; 5; 7] 1).
Proof.
  apply (polyfit_matrix_times_coeffs [2; 3; 5; 7] [1; 0; 4; 1] 3 1).
  - simpl. lia.
  - simpl. lia.
Defined.

(** X4: the frame of [convertToCoordinates] has the vehicle at its origin,
    its first axis along the heading and its second axis to the left: a
    waypoint [d] ahead of the vehicle and [e] to its left has the local
    coordinates [(d, e)]. *)
Theorem convertToCoordinates_heading_frame :
  forall (x y psi : R) (ptsx ptsy : list R) (d e : R) (i : nat),
    length ptsx = length ptsy ->
    (i < length ptsx)%nat ->
    at_ ptsx i = x + d * cos psi - e * sin psi ->
    at_ ptsy i = y + d * sin psi + e * cos psi ->
    exists m : MatrixXd,
      convertToCoordinates x y psi ptsx ptsy = Done m
      /\ point m i = (d, e).
Proof.
  intros x y psi ptsx ptsy d e i same_size Hi Hwx Hwy.
  eexists. split; [ apply convertToCoordinates_done; exact same_size | ].
  unfold point, row. simpl nth.
  rewrite pathpoints_row0_at, pathpoints_row1_at by exact Hi.
  rewrite Hwx, Hwy.
  pose proof (sin2_cos2 psi) as Hsc. unfold Rsqr in Hsc.
  f_equal.
  - replace (_ + _) with (d * (sin psi * sin psi + cos psi * cos psi))
      by ring.
    rewrite Hsc. ring.
  - replace (_ + _) with (e * (sin psi * sin psi + cos psi * cos psi))
      by ring.
    rewrite Hsc. ring.
Qed.

Lemma convertToCoordinates_heading_frame_witness :
  exists m : MatrixXd,
    convertToCoordinates 1 2 0 [4; 1] [2; 7] = Done m
    /\ point m 1 = (0, 5).
Proof.
  apply (convertToCoordinates_heading_frame 1 2 0 [4; 1] [2; 7] 0 5 1).
  - reflexivity.
  - simpl. lia.
  - unfold at_. simpl. rewrite cos_0, sin_0. lra.
  - unfold at_. simpl. rewrite cos_0, sin_0. lra.
Defined.

(** X5: the steering value of the steer message is the solver's steering
    angle divided by [deg2rad 25] with its sign inverted; a solver angle
    within [-deg2rad 25, deg2rad 25] is sent as a value within [-1, 1]. *)
Theorem steer_message_steering_normalized :
  forall solution : list R,
    let delta := at_ solution 6 in
    steering_angle (steer_message solution) * deg2rad 25 = - delta
    /\ (- deg2rad 25 <= delta <= deg2rad 25 ->
        -1 <= steering_angle (steer_message solution) <= 1).
Proof.
  intros solution delta. pose proof deg2rad_25_pos as Hpos.
  assert (Hval : steering_angle (steer_message solution) * deg2rad 25
                 = - delta).
  { simpl steering_angle. fold delta. field. lra. }
  split; [ exact Hval | ].
  intros [Hlo Hhi].
  set (s := steering_angle (steer_message solution)) in *.
  split; nra.
Qed.

Lemma steer_message_steering_normalized_witness :
  (- deg2rad 25 <= 0 <= deg2rad 25)
  /\ -1 <= steering_angle (steer_message [0; 0; 0; 0; 0; 0; 0; 0]) <= 1.
Proof.
  assert (Hin : - deg2rad 25 <= 0 <= deg2rad 25)
    by (pose proof deg2rad_25_pos; lra).
  split; [ exact Hin | ].
  exact (proj2 (steer_message_steering_normalized [0; 0; 0; 0; 0; 0; 0; 0])
               Hin).
Defined.

Section FmodSign.

Lemma Ztrunc_integer (z : Z) : Ztrunc (IZR z) = z.
Proof.
  unfold Ztrunc. destruct (Rle_dec 0 (IZR z)).
  - apply ZfloorZ.
  - unfold Zceil. rewrite ZfloorNZ. lia.
Qed.

Lemma fmod_1_nonneg (t : R) : 0 <= t -> 0 <= fmod t 1.0 < 1.
Proof.
  intro Ht. rewrite fmod_1. unfold Ztrunc.
  destruct (Rle_dec 0 t) as [ _ | Hneg ]; [ | lra ].
  pose proof (Zfloor_bound t). lra.
Qed.

Lemma fmod_1_nonpos (t : R) : t <= 0 -> -1 < fmod t 1.0 <= 0.
Proof.
  intro Ht. rewrite fmod_1. unfold Ztrunc.
  destruct (Rle_dec 0 t) as [ Hpos | Hneg ].
  - assert (t = 0) by lra. subst t. rewrite (ZfloorZ 0). lra.
  - pose proof (Zceil_bound t). lra.
Qed.

End FmodSign.

(** X6: the throttle of the steer message never changes the sign of the
    solver's throttle, and every integer throttle, full throttle 1 and full
    brake -1 among them, is sent as 0. *)
Theorem steer_message_throttle_sign_and_integers :
  forall solution : list R,
    let t := at_ solution 7 in
    (0 <= t -> 0 <= throttle (steer_message solution) < 1)
    /\ (t <= 0 -> -1 < throttle (steer_message solution) <= 0)
    /\ (forall z : Z, t = IZR z -> throttle (steer_message solution) = 0).
Proof.
  intros solution t. rewrite steer_message_throttle. fold t.
  split; [ apply fmod_1_nonneg | split; [ apply fmod_1_nonpos | ] ].
  intros z Hz. rewrite fmod_1, Hz, Ztrunc_integer. ring.
Qed.

Lemma steer_message_throttle_sign_and_integers_witness :
  throttle (steer_message [0; 0; 0; 0; 0; 0; 0; 1]) = 0.
Proof.
  apply (proj2 (proj2 (steer_message_throttle_sign_and_integers
                         [0; 0; 0; 0; 0; 0; 0; 1]))
               1%Z).
  reflexivity.
Defined.

(** X7: the telemetry branch sends a steer message exactly when the
    telemetry has as many x as y waypoints and at least four of them;
    otherwise an assertion terminates the process. *)
Theorem onTelemetry_sends_iff_four_waypoints :
  forall (householderQr_solve : MatrixXd -> VectorXd -> VectorXd)
         (mpc_Solve : VectorXd -> VectorXd -> list R)
         (dt : R) (t : telemetry),
    ((exists msgJson : steer_json,
         onTelemetry householderQr_solve mpc_Solve dt t
         = Done (SteerFrame msgJson))
     <-> (length (t_ptsx t) = length (t_ptsy t)
          /\ (4 <= length (t_ptsx t))%nat))
    /\ (~ (length (t_ptsx t) = length (t_ptsy t)
           /\ (4 <= length (t_ptsx t))%nat) ->
        onTelemetry householderQr_solve mpc_Solve dt t = Terminated).
Proof.
  intros qr Solve dt t.
  assert (Hstop : ~ (length (t_ptsx t) = length (t_ptsy t)
                     /\ (4 <= length (t_ptsx t))%nat) ->
                  onTelemetry qr Solve dt t = Terminated).
  { intro Hbad. unfold onTelemetry.
    destruct (Nat.eq_dec (length (t_ptsx t)) (length (t_ptsy t)))
      as [ Heq | Hne ].
    - rewrite solver_input_too_few by lia. reflexivity.
    - unfold solver_input.
      rewrite convertToCoordinates_size_mismatch by exact Hne. reflexivity. }
  split; [ split | exact Hstop ].
  - intros [msgJson Hsent].
    destruct (Nat.eq_dec (length (t_ptsx t)) (length (t_ptsy t)))
      as [ Heq | Hne ].
    + destruct (le_lt_dec 4 (length (t_ptsx t))) as [ Hfour | Hfew ].
      * split; assumption.
      * rewrite Hstop in Hsent by lia. discriminate Hsent.
    + rewrite Hstop in Hsent by tauto. discriminate Hsent.
  - intros [same_size Hfour].
    destruct (solver_input_done qr dt t same_size Hfour) as [_ Hinput].
    cbv zeta in Hinput. unfold onTelemetry. rewrite Hinput.
    eexists. reflexivity.
Qed.

Lemma onTelemetry_sends_iff_four_waypoints_witness :
  onTelemetry (fun _ _ => [1; 2; 3; 4]) (fun _ _ => []) 0.1
    (Telemetry [0; 1; 2; 3; 4] [0; 0; 0; 0] 0 0 0 10 0 0)
  = Terminated.
Proof.
  apply (proj2 (onTelemetry_sends_iff_four_waypoints
                  (fun _ _ => [1; 2; 3; 4]) (fun _ _ => []) 0.1
                  (Telemetry [0; 1; 2; 3; 4] [0; 0; 0; 0] 0 0 0 10 0 0))).
  simpl. lia.
Defined.

Section StringSearch.

Local Open Scope string_scope.

Lemma length_app (a b : string) :
  String.length (a ++ b) = (String.length a + String.length b)%nat.
Proof. induction a as [ | c a IH ]; simpl; [ | rewrite IH ]; reflexivity. Qed.

Lemma app_assoc_str (a b c : string) : (a ++ b) ++ c = a ++ b ++ c.
Proof. induction a as [ | d a IH ]; simpl; [ | rewrite IH ]; reflexivity. Qed.

Lemma app_empty_r (a : string) : a ++ "" = a.
Proof. induction a as [ | d a IH ]; simpl; [ | rewrite IH ]; reflexivity. Qed.

Lemma prefix_split (pat s : string) :
  prefix pat s = true -> exists after : string, s = pat ++ after.
Proof.
  revert s. induction pat as [ | c pat IH ]; intros s Hpre.
  - now exists s.
  - destruct s as [ | d s ]; [ discriminate Hpre | ].
    simpl in Hpre. destruct (ascii_dec c d) as [ Heq | Hne ];
      [ | discriminate Hpre ].
    destruct (IH s Hpre) as [after Hs]. exists after. simpl. congruence.
Qed.

Lemma contains_tail (c : ascii) (s pat : string) :
  StdString.contains s pat -> StdString.contains (String c s) pat.
Proof.
  intros (before & after & Hs). exists (String c before), after.
  simpl. now rewrite Hs.
Qed.

Lemma contains_cons (c : ascii) (s pat : string) :
  StdString.contains (String c s) pat ->
  prefix pat (String c s) = true \/ StdString.contains s pat.
Proof.
  intros (before & after & Hs). destruct before as [ | d before ].
  - left. simpl in Hs. rewrite Hs. apply prefix_append.
  - right. simpl in Hs. injection Hs as _ Hs. now exists before, after.
Qed.

Lemma find_at_sound (pat s : string) :
  forall pos i : nat,
    StdString.find_at pat s pos = Some i -> StdString.contains s pat.
Proof.
  induction s as [ | c s IH ]; intros pos i Hfound;
    rewrite find_at_unfold in Hfound.
  - destruct (prefix pat "") eqn:Hpre; [ | discriminate Hfound ].
    destruct (prefix_split _ _ Hpre) as [after Hs]. now exists "", after.
  - destruct (prefix pat (String c s)) eqn:Hpre.
    + destruct (prefix_split _ _ Hpre) as [after Hs]. now exists "", after.
    + apply contains_tail. now apply (IH (S pos) i).
Qed.

Lemma find_absent (s pat : string) :
  ~ StdString.contains s pat -> StdString.find s pat = None.
Proof.
  intro Habsent. unfold StdString.find.
  destruct (StdString.find_at pat s 0) as [ i | ] eqn:Hfound;
    [ | reflexivity ].
  elim Habsent. now apply (find_at_sound pat s 0 i).
Qed.

Lemma rfind_at_cons (pat : string) (c : ascii) (s : string) (pos : nat) :
  StdString.rfind_at pat (String c s) pos
  = match StdString.rfind_at pat s (S pos) with
    | Some i => Some i
    | None => if prefix pat (String c s) then Some pos else None
    end.
Proof. reflexivity. Qed.

Lemma rfind_at_sound (pat s : string) :
  forall pos i : nat,
    StdString.rfind_at pat s pos = Some i -> StdString.contains s pat.
Proof.
  induction s as [ | c s IH ]; intros pos i Hfound.
  - simpl in Hfound.
    destruct pat; [ now exists "", "" | discriminate Hfound ].
  - rewrite rfind_at_cons in Hfound.
    destruct (StdString.rfind_at pat s (S pos)) as [ k | ] eqn:Hlater.
    + apply contains_tail. now apply (IH (S pos) k).
    + destruct (prefix pat (String c s)) eqn:Hpre; [ | discriminate Hfound ].
      destruct (prefix_split _ _ Hpre) as [after Hs]. now exists "", after.
Qed.

Lemma rfind_at_absent (pat s : string) (pos : nat) :
  ~ StdString.contains s pat -> StdString.rfind_at pat s pos = None.
Proof.
  intro Habsent.
  destruct (StdString.rfind_at pat s pos) as [ i | ] eqn:Hfound;
    [ | reflexivity ].
  elim Habsent. now apply (rfind_at_sound pat s pos i).
Qed.

(** The last occurrence: [pat] at the head of [t] and nowhere later. *)
Lemma rfind_at_last (pat a : string) (c : ascii) (t : string) :
  forall pos : nat,
    prefix pat (String c t) = true ->
    ~ StdString.contains t pat ->
    StdString.rfind_at pat (a ++ String c t) pos
    = Some (pos + String.length a)%nat.
Proof.
  intros pos Hhere Hlater. revert pos.
  induction a as [ | d a IH ]; intro pos.
  - simpl append. rewrite rfind_at_cons.
    rewrite (rfind_at_absent pat t (S pos) Hlater), Hhere.
    simpl. f_equal. lia.
  - simpl append. rewrite rfind_at_cons, IH.
    simpl. f_equal. lia.
Qed.

Lemma mem_char_app (c : ascii) (a b : string) :
  StdString.mem_char c (a ++ b)
  = StdString.mem_char c a || StdString.mem_char c b.
Proof.
  induction a as [ | d a IH ]; simpl; [ reflexivity | ].
  rewrite IH. now rewrite orb_assoc.
Qed.

Lemma find_first_of_at_first (c : ascii) (pre rest : string) :
  forall pos : nat,
    StdString.mem_char c pre = false ->
    StdString.find_first_of_at (String c "") (pre ++ String c rest) pos
    = Some (pos + String.length pre)%nat.
Proof.
  induction pre as [ | d pre IH ]; intros pos Hnone.
  - simpl. rewrite Ascii.eqb_refl. simpl. f_equal. lia.
  - simpl in Hnone. apply orb_false_elim in Hnone as [Hd Hpre].
    simpl. rewrite Ascii.eqb_sym, Hd. simpl. rewrite IH by exact Hpre.
    f_equal. lia.
Qed.

Lemma find_first_of_at_absent (c : ascii) (s : string) (pos : nat) :
  StdString.mem_char c s = false ->
  StdString.find_first_of_at (String c "") s pos = None.
Proof.
  revert pos. induction s as [ | d s IH ]; intros pos Hnone.
  - reflexivity.
  - simpl in Hnone. apply orb_false_elim in Hnone as [Hd Hs].
    simpl. rewrite Ascii.eqb_sym, Hd. simpl. now apply IH.
Qed.

Lemma find_first_of_at_split (chars s : string) :
  forall pos i : nat,
    StdString.find_first_of_at chars s pos = Some i ->
    exists (pre : string) (c : ascii) (rest : string),
      s = pre ++ String c rest
      /\ i = (pos + String.length pre)%nat
      /\ StdString.mem_char c chars = true.
Proof.
  induction s as [ | d s IH ]; intros pos i Hfound.
  - discriminate Hfound.
  - simpl in Hfound. destruct (StdString.mem_char d chars) eqn:Hd.
    + injection Hfound as Hi. exists "", d, s. simpl.
      repeat split; [ lia | exact Hd ].
    + destruct (IH (S pos) i Hfound) as (pre & c & rest & Hs & Hi & Hc).
      exists (String d pre), c, rest. simpl.
      repeat split; [ now rewrite Hs | lia | exact Hc ].
Qed.

Lemma substring_zero (n : nat) (s : string) : substring n 0 s = "".
Proof.
  revert s. induction n as [ | n IH ]; intro s; destruct s; simpl;
    try reflexivity.
  apply IH.
Qed.

Lemma substring_skip (pre s : string) (m : nat) :
  substring (String.length pre) m (pre ++ s) = substring 0 m s.
Proof. induction pre as [ | c pre IH ]; simpl; [ reflexivity | exact IH ]. Qed.

Lemma substring_take (p post : string) :
  substring 0 (String.length p) (p ++ post) = p.
Proof.
  induction p as [ | c p IH ]; simpl.
  - destruct post; reflexivity.
  - now rewrite IH.
Qed.

Lemma substring_all (p : string) : substring 0 (String.length p) p = p.
Proof.
  rewrite <- (app_empty_r p) at 2. apply substring_take.
Qed.

Lemma substring_head (c : ascii) (s : string) (m : nat) :
  substring 0 (S m) (String c s) = String c (substring 0 m s).
Proof. reflexivity. Qed.

Lemma substring_leading (m : nat) (s : string) :
  exists after : string, s = substring 0 m s ++ after.
Proof.
  revert m. induction s as [ | c s IH ]; intro m.
  - exists "". destruct m; reflexivity.
  - destruct m as [ | m ].
    + now exists (String c s).
    + destruct (IH m) as [after Hs]. exists after. simpl. now rewrite <- Hs.
Qed.

Lemma substring_inside (n m : nat) (s : string) :
  StdString.contains s (substring n m s).
Proof.
  revert n. induction s as [ | c s IH ]; intro n.
  - exists "", "". destruct n, m; reflexivity.
  - destruct n as [ | n ].
    + destruct (substring_leading m (String c s)) as [after Hs].
      now exists "", after.
    + simpl substring. apply contains_tail. apply IH.
Qed.

Lemma not_contains_short (pat : string) (c : ascii) :
  prefix pat (String c "") = false ->
  pat <> "" ->
  ~ StdString.contains (String c "") pat.
Proof.
  intros Hpre Hpat Hin. apply contains_cons in Hin as [ Hhere | Hin ].
  - congruence.
  - destruct Hin as (before & after & Hs).
    destruct before; destruct pat; try discriminate Hs. now elim Hpat.
Qed.

Lemma hasData_found (s : string) (b1 b2 : nat) :
  StdString.find s "null" = None ->
  StdString.find_first_of s "[" = Some b1 ->
  StdString.rfind s "}]" = Some b2 ->
  hasData s
  = StdString.substr s b1 (StdString.size_t (Z.of_nat b2 - Z.of_nat b1 + 2)).
Proof.
  intros Hnull Hb1 Hb2. unfold hasData. cbv zeta.
  now rewrite Hnull, Hb1, Hb2.
Qed.

Lemma hasData_no_payload (s : string) :
  StdString.mem_char "[" s = false \/ ~ StdString.contains s "}]" ->
  hasData s = "".
Proof.
  intro Hmissing. unfold hasData. cbv zeta.
  destruct (StdString.find s "null"); [ reflexivity | ].
  destruct Hmissing as [ Hopen | Hclose ].
  - unfold StdString.find_first_of.
    now rewrite (find_first_of_at_absent "[" s 0 Hopen).
  - unfold StdString.rfind at 1.
    rewrite (rfind_at_absent "}]" s 0 Hclose).
    now destruct (StdString.find_first_of s "[").
Qed.

Lemma hasData_nonempty_shape (s : string) :
  hasData s <> "" ->
  (exists rest : string, hasData s = String "[" rest)
  /\ StdString.contains s (hasData s).
Proof.
  unfold hasData. cbv zeta.
  destruct (StdString.find s "null"); [ now intros [] | ].
  destruct (StdString.find_first_of s "[") as [ b1 | ] eqn:Hb1;
    [ | now intros [] ].
  destruct (StdString.rfind s "}]") as [ b2 | ]; [ | now intros [] ].
  unfold StdString.substr.
  set (k := Z.to_nat _). intro Hne.
  split; [ | apply substring_inside ].
  destruct (find_first_of_at_split _ _ _ _ Hb1)
    as (pre & c & rest & Hs & Hpos & Hc).
  simpl in Hpos, Hc. rewrite orb_false_r in Hc.
  apply Ascii.eqb_eq in Hc. subst c b1.
  clearbody k. revert Hne. rewrite Hs. simpl Nat.add.
  rewrite substring_skip.
  destruct k as [ | k ].
  - intro Hne. now elim Hne.
  - intros _. rewrite substring_head. now eexists.
Qed.

Lemma is_event_frame (sdata : string) :
  is_event sdata = true
  <-> exists rest : string, rest <> "" /\ sdata = "42" ++ rest.
Proof.
  unfold is_event. split.
  - intro Hevent. apply andb_prop in Hevent as [Hlen Hhead].
    destruct sdata as [ | c0 [ | c1 [ | c2 rest ] ] ];
      try discriminate Hlen.
    simpl in Hhead. apply andb_prop in Hhead as [H4 H2].
    apply Ascii.eqb_eq in H4, H2. subst c0 c1.
    exists (String c2 rest). split; [ discriminate | reflexivity ].
  - intros (rest & Hrest & Hs). subst sdata.
    destruct rest as [ | c2 rest ]; [ now elim Hrest | reflexivity ].
Qed.

End StringSearch.

Section Payload.

Local Open Scope string_scope.

Lemma size_t_small (z : Z) : (0 <= z < 2 ^ 64)%Z -> StdString.size_t z = z.
Proof. intro Hz. unfold StdString.size_t. now apply Z.mod_small. Qed.

Lemma size_t_negative (z : Z) :
  (- 2 ^ 64 <= z < 0)%Z -> StdString.size_t z = (z + 2 ^ 64)%Z.
Proof.
  intro Hz. unfold StdString.size_t.
  replace z with (z + 2 ^ 64 + (-1) * 2 ^ 64)%Z at 1 by ring.
  rewrite Z_mod_plus_full. apply Z.mod_small. lia.
Qed.

Lemma substr_tail (pre p : string) (count : Z) :
  (Z.of_nat (String.length p) <= count)%Z ->
  StdString.substr (pre ++ p) (String.length pre) count = p.
Proof.
  intro Hcount. unfold StdString.substr.
  rewrite length_app, Z.min_r by lia.
  replace (Z.to_nat _) with (String.length p) by lia.
  rewrite substring_skip. apply substring_all.
Qed.

Lemma hasData_payload (pre mid : string) :
  StdString.mem_char "[" pre = false ->
  ~ StdString.contains (pre ++ "[" ++ mid ++ "}]") "null" ->
  (Z.of_nat (String.length (pre ++ "[" ++ mid ++ "}]")) < 2 ^ 64)%Z ->
  hasData (pre ++ "[" ++ mid ++ "}]") = "[" ++ mid ++ "}]".
Proof.
  intros Hpre Hnull Hsize.
  assert (Hb1 : StdString.find_first_of (pre ++ "[" ++ mid ++ "}]") "["
                = Some (String.length pre)).
  { unfold StdString.find_first_of. simpl append.
    now rewrite find_first_of_at_first. }
  assert (Hb2 : StdString.rfind (pre ++ "[" ++ mid ++ "}]") "}]"
                = Some (String.length (pre ++ "[" ++ mid))).
  { unfold StdString.rfind.
    replace (pre ++ "[" ++ mid ++ "}]")
      with ((pre ++ "[" ++ mid) ++ String "}" "]")
      by (rewrite app_assoc_str; reflexivity).
    rewrite rfind_at_last; [ reflexivity | reflexivity | ].
    apply not_contains_short; [ reflexivity | discriminate ]. }
  rewrite (hasData_found _ _ _ (find_absent _ _ Hnull) Hb1 Hb2).
  rewrite !length_app in *. simpl String.length in *.
  rewrite size_t_small by lia.
  apply substr_tail. rewrite !length_app. simpl String.length. lia.
Qed.

End Payload.

(** X8: [hasData] extracts the payload of a frame: for a text that ends with
    a bracketed payload (from a [[] to a final [}]]), has no [[] before it
    and holds no [null], the result is exactly the payload, whatever
    precedes it. *)
Theorem hasData_extracts_payload :
  forall pre mid : string,
    StdString.mem_char "[" pre = false ->
    ~ StdString.contains (pre ++ "[" ++ mid ++ "}]") "null" ->
    (Z.of_nat (String.length (pre ++ "[" ++ mid ++ "}]")) < 2 ^ 64)%Z ->
    hasData (pre ++ "[" ++ mid ++ "}]") = ("[" ++ mid ++ "}]")%string.
Proof. exact hasData_payload. Qed.

Lemma hasData_extracts_payload_witness :
  hasData "42[7,{}]" = "[7,{}]"%string.
Proof.
  apply (hasData_extracts_payload "42" "7,{").
  - reflexivity.
  - intro Hin. apply find_contains in Hin as [i Hi]. discriminate Hi.
  - reflexivity.
Defined.

(** X9: whatever [hasData] returns, if it is not empty it starts with [[],
    it is a piece of the inbound text, and the inbound text holds no
    [null]. *)
Theorem hasData_result_shape :
  forall s : string,
    hasData s <> ""%string ->
    (exists rest : string, hasData s = String "[" rest)
    /\ StdString.contains s (hasData s)
    /\ ~ StdString.contains s "null".
Proof.
  intros s Hne. destruct (hasData_nonempty_shape s Hne) as [Hopen Hpiece].
  split; [ exact Hopen | split; [ exact Hpiece | ] ].
  intro Hnull. apply Hne. now apply hasData_null.
Qed.

Lemma hasData_result_shape_witness :
  (exists rest : string, hasData "42[7,{}]" = String "[" rest)
  /\ StdString.contains "42[7,{}]" (hasData "42[7,{}]")
  /\ ~ StdString.contains "42[7,{}]" "null".
Proof.
  apply (hasData_result_shape "42[7,{}]"). discriminate.
Defined.

(** X10: a text without any [[], or without any [}]], has no data for
    [hasData]; when it is an event frame the handler answers it with the
    manual-driving text. *)
Theorem frame_without_payload_is_answered_manual :
  forall (householderQr_solve : MatrixXd -> VectorXd -> VectorXd)
         (mpc_Solve : VectorXd -> VectorXd -> list R)
         (dt : R)
         (json_event : string -> run string)
         (json_telemetry : string -> run telemetry)
         (sdata : string),
    StdString.mem_char "[" sdata = false
    \/ ~ StdString.contains sdata "}]" ->
    hasData sdata = ""%string
    /\ (is_event sdata = true ->
        onMessage householderQr_solve mpc_Solve dt json_event json_telemetry
                  sdata
        = Done (Some (TextFrame manual_msg))).
Proof.
  intros qr Solve dt jevent jfields sdata Hmissing.
  pose proof (hasData_no_payload sdata Hmissing) as Hnone.
  split; [ exact Hnone | ].
  intro Hevent. now apply onMessage_no_data.
Qed.

Lemma frame_without_payload_is_answered_manual_witness :
  onMessage (fun _ _ => [1; 2; 3; 4]) (fun _ _ => []) 0.1
            (fun _ => Terminated) (fun _ => Terminated) "42 {}"
  = Done (Some (TextFrame manual_msg)).
Proof.
  apply (frame_without_payload_is_answered_manual
           (fun _ _ => [1; 2; 3; 4]) (fun _ _ => []) 0.1
           (fun _ => Terminated) (fun _ => Terminated) "42 {}").
  - left. reflexivity.
  - reflexivity.
Defined.

(** X11: a text that is not an event frame (it does not start with 42, or
    nothing follows the 42) is ignored: nothing is sent and nothing is
    parsed. *)
Theorem non_event_frame_is_ignored :
  forall (householderQr_solve : MatrixXd -> VectorXd -> VectorXd)
         (mpc_Solve : VectorXd -> VectorXd -> list R)
         (dt : R)
         (json_event : string -> run string)
         (json_telemetry : string -> run telemetry)
         (sdata : string),
    ~ (exists rest : string,
          rest <> ""%string /\ sdata = ("42" ++ rest)%string) ->
    onMessage householderQr_solve mpc_Solve dt json_event json_telemetry sdata
    = Done None.
Proof.
  intros qr Solve dt jevent jfields sdata Hframe.
  apply onMessage_not_event.
  destruct (is_event sdata) eqn:Hevent; [ | reflexivity ].
  elim Hframe. now apply is_event_frame.
Qed.

Lemma non_event_frame_is_ignored_witness :
  onMessage (fun _ _ => [1; 2; 3; 4]) (fun _ _ => []) 0.1
            (fun _ => Terminated) (fun _ => Terminated) "42"
  = Done None.
Proof.
  apply (non_event_frame_is_ignored
           (fun _ _ => [1; 2; 3; 4]) (fun _ _ => []) 0.1
           (fun _ => Terminated) (fun _ => Terminated) "42").
  intros (rest & Hrest & Hs).
  destruct rest; [ now elim Hrest | discriminate Hs ].
Defined.

(** X12: the JSON parser is only ever given a piece of the inbound text that
    starts with [[]: two parsers that agree on such texts make the handler
    answer alike. *)
Theorem parser_only_reads_bracketed_pieces :
  forall (householderQr_solve : MatrixXd -> VectorXd -> VectorXd)
         (mpc_Solve : VectorXd -> VectorXd -> list R)
         (dt : R)
         (json_event json_event' : string -> run string)
         (json_telemetry json_telemetry' : string -> run telemetry)
         (sdata : string),
    (forall p : string,
        StdString.contains sdata (String "[" p) ->
        json_event (String "[" p) = json_event' (String "[" p)
        /\ json_telemetry (String "[" p) = json_telemetry' (String "[" p)) ->
    onMessage householderQr_solve mpc_Solve dt json_event json_telemetry sdata
    = onMessage householderQr_solve mpc_Solve dt json_event' json_telemetry'
                sdata.
Proof.
  intros qr Solve dt je je' jt jt' sdata Hagree. unfold onMessage.
  destruct (is_event sdata); [ | reflexivity ].
  destruct (String.eqb_spec (hasData sdata) "") as [ Hnone | Hdata ];
    [ reflexivity | ].
  destruct (hasData_nonempty_shape sdata Hdata) as [[p Hp] Hpiece].
  rewrite Hp in *. destruct (Hagree p Hpiece) as [Hje Hjt].
  simpl negb. cbv iota. now rewrite Hje, Hjt.
Qed.

Lemma parser_only_reads_bracketed_pieces_witness :
  onMessage (fun _ _ => [1; 2; 3; 4]) (fun _ _ => []) 0.1
            (fun _ => Done "steer"%string) (fun _ => Terminated) "42[7,{}]"
  = onMessage (fun _ _ => [1; 2; 3; 4]) (fun _ _ => []) 0.1
              (fun s => match s with
                        | String _ _ => Done "steer"%string
                        | EmptyString => Terminated
                        end)
              (fun _ => Terminated) "42[7,{}]".
Proof.
  apply (parser_only_reads_bracketed_pieces
           (fun _ _ => [1; 2; 3; 4]) (fun _ _ => []) 0.1
           (fun _ => Done "steer"%string)
           (fun s => match s with
                     | String _ _ => Done "steer"%string
                     | EmptyString => Terminated
                     end)
           (fun _ => Terminated) (fun _ => Terminated) "42[7,{}]").
  intros p _. split; reflexivity.
Defined.

(** X13: end to end, a frame [42] followed by a bracketed payload without
    [null] hands exactly the payload to the JSON parser; when the parser
    reads a telemetry event with as many x as y waypoints, at least four,
    the answer is the steer message built from the solver's answer to the
    state and coefficients of that telemetry. *)
Theorem telemetry_frame_is_answered_with_steer :
  forall (householderQr_solve : MatrixXd -> VectorXd -> VectorXd)
         (mpc_Solve : VectorXd -> VectorXd -> list R)
         (dt : R)
         (json_event : string -> run string)
         (json_telemetry : string -> run telemetry)
         (mid : string) (t : telemetry),
    ~ StdString.contains ("42" ++ "[" ++ mid ++ "}]") "null" ->
    (Z.of_nat (String.length ("42" ++ "[" ++ mid ++ "}]")) < 2 ^ 64)%Z ->
    json_event ("[" ++ mid ++ "}]")%string = Done "telemetry"%string ->
    json_telemetry ("[" ++ mid ++ "}]")%string = Done t ->
    length (t_ptsx t) = length (t_ptsy t) ->
    (4 <= length (t_ptsx t))%nat ->
    exists state coeffs : VectorXd,
      solver_input householderQr_solve dt t = Done (state, coeffs)
      /\ onMessage householderQr_solve mpc_Solve dt json_event json_telemetry
                   ("42" ++ "[" ++ mid ++ "}]")
         = Done (Some (SteerFrame (steer_message (mpc_Solve state coeffs)))).
Proof.
  intros qr Solve dt je jt mid t Hnull Hsize Hje Hjt same_size Hfour.
  assert (Hdata : hasData ("42" ++ "[" ++ mid ++ "}]")
                  = ("[" ++ mid ++ "}]")%string)
    by (apply hasData_payload; [ reflexivity | exact Hnull | exact Hsize ]).
  destruct (solver_input_done qr dt t same_size Hfour) as [_ Hinput].
  cbv zeta in Hinput.
  eexists. eexists. split; [ exact Hinput | ].
  rewrite (onMessage_telemetry qr Solve dt je jt _ t).
  - unfold onTelemetry. rewrite Hinput. reflexivity.
  - reflexivity.
  - rewrite Hdata. discriminate.
  - rewrite Hdata. exact Hje.
  - rewrite Hdata. exact Hjt.
Qed.

Lemma telemetry_frame_is_answered_with_steer_witness :
  exists state coeffs : VectorXd,
    onMessage (fun _ _ => [1; 2; 3; 4]) (fun _ _ => [0; 0; 0; 0; 0; 0; 0; 0])
              0.1
              (fun _ => Done "telemetry"%string)
              (fun _ => Done (Telemetry [0; 1; 2; 3] [0; 0; 0; 0]
                                        0 0 0 10 0 0))
              "42[7,{}]"
    = Done (Some (SteerFrame
                    (steer_message
                       ((fun _ _ => [0; 0; 0; 0; 0; 0; 0; 0]) state coeffs)))).
Proof.
  destruct (telemetry_frame_is_answered_with_steer
              (fun _ _ => [1; 2; 3; 4]) (fun _ _ => [0; 0; 0; 0; 0; 0; 0; 0])
              0.1
              (fun _ => Done "telemetry"%string)
              (fun _ => Done (Telemetry [0; 1; 2; 3] [0; 0; 0; 0]
                                        0 0 0 10 0 0))
              "7,{" (Telemetry [0; 1; 2; 3] [0; 0; 0; 0] 0 0 0 10 0 0))
    as (state & coeffs & _ & Hsent).
  - intro Hin. apply find_contains in Hin as [i Hi]. discriminate Hi.
  - reflexivity.
  - reflexivity.
  - reflexivity.
  - reflexivity.
  - simpl. lia.
  - exists state, coeffs. exact Hsent.
Defined.

Section ClosingBeforeOpening.

Local Open Scope string_scope.

Variables a b post : string.

Hypothesis no_open_a : StdString.mem_char "[" a = false.
Hypothesis no_open_b : StdString.mem_char "[" b = false.
Hypothesis no_close_later : ~ StdString.contains (b ++ "[" ++ post) "}]".
Hypothesis no_null :
  ~ StdString.contains (a ++ "}]" ++ b ++ "[" ++ post) "null".
Hypothesis fits :
  (Z.of_nat (String.length (a ++ "}]" ++ b ++ "[" ++ post)) < 2 ^ 64)%Z.

Lemma first_open_after_close :
  StdString.find_first_of (a ++ "}]" ++ b ++ "[" ++ post) "["
  = Some (String.length (a ++ "}]" ++ b)).
Proof.
  unfold StdString.find_first_of.
  replace (a ++ "}]" ++ b ++ "[" ++ post)
    with ((a ++ "}]" ++ b) ++ String "[" post)
    by (now rewrite !app_assoc_str).
  rewrite find_first_of_at_first; [ reflexivity | ].
  rewrite !mem_char_app, no_open_a, no_open_b. reflexivity.
Qed.

Lemma last_close_before_open :
  StdString.rfind (a ++ "}]" ++ b ++ "[" ++ post) "}]" = Some (String.length a).
Proof.
  unfold StdString.rfind. simpl append.
  rewrite rfind_at_last;
    [ reflexivity | apply (prefix_append "}]" (b ++ String "[" post)) | ].
  intro Hin. apply contains_cons in Hin as [ Hhere | Hin ].
  - discriminate Hhere.
  - now apply no_close_later.
Qed.

Lemma hasData_close_then_open :
  hasData (a ++ "}]" ++ b ++ "[" ++ post) = if String.eqb b "" then "" else "[" ++ post.
Proof.
  rewrite (hasData_found _ _ _ (find_absent _ _ no_null)
             first_open_after_close last_close_before_open).
  assert (Hlen := fits).
  rewrite !length_app in Hlen. simpl String.length in Hlen.
  replace (a ++ "}]" ++ b ++ "[" ++ post)
    with ((a ++ "}]" ++ b) ++ "[" ++ post)
    by (now rewrite !app_assoc_str).
  rewrite !length_app. simpl String.length.
  destruct (String.eqb_spec b "") as [ Hb | Hb ].
  - subst b. simpl String.length. rewrite size_t_small by lia.
    unfold StdString.substr.
    replace (Z.to_nat _) with 0%nat by lia. apply substring_zero.
  - assert (0 < String.length b)%nat
      by (destruct b; [ now elim Hb | simpl; lia ]).
    rewrite size_t_negative by lia.
    replace (String.length a + (2 + String.length b))%nat
      with (String.length (a ++ "}]" ++ b))
      by (rewrite !length_app; reflexivity).
    apply substr_tail. rewrite !length_app. simpl String.length. lia.
Qed.

End ClosingBeforeOpening.

(** X14: when the last [}]] of a text comes before its first [[], the
    length [b2 - b1 + 2] given to [substr] wraps around as a [size_t]:
    [hasData] returns the text from the [[] to its end, which holds no [}]];
    only when the [[] follows the [}]] directly is the length 0 and the
    result empty. *)
Theorem hasData_close_before_open :
  forall a b post : string,
    StdString.mem_char "[" a = false ->
    StdString.mem_char "[" b = false ->
    ~ StdString.contains (b ++ "[" ++ post) "}]" ->
    ~ StdString.contains (a ++ "}]" ++ b ++ "[" ++ post) "null" ->
    (Z.of_nat (String.length (a ++ "}]" ++ b ++ "[" ++ post)) < 2 ^ 64)%Z ->
    hasData (a ++ "}]" ++ b ++ "[" ++ post)
    = if String.eqb b "" then ""%string else ("[" ++ post)%string.
Proof. exact hasData_close_then_open. Qed.

Lemma hasData_close_before_open_witness :
  hasData "{}]42[7" = "[7"%string.
Proof.
  apply (hasData_close_before_open "{" "42" "7").
  - reflexivity.
  - reflexivity.
  - intro Hin. apply find_contains in Hin as [i Hi]. discriminate Hi.
  - intro Hin. apply find_contains in Hin as [i Hi]. discriminate Hi.
  - reflexivity.
Defined.

Section FrameComposition.

Variables x1 y1 psi1 x2 y2 psi2 : R.

Lemma compose_local_x (wx wy : R) :
  cos psi2 * (cos psi1 * (wx - x1) + sin psi1 * (wy - y1) - x2)
  + sin psi2 * (- sin psi1 * (wx - x1) + cos psi1 * (wy - y1) - y2)
  = cos (psi1 + psi2) * (wx - (x1 + x2 * cos psi1 - y2 * sin psi1))
    + sin (psi1 + psi2) * (wy - (y1 + x2 * sin psi1 + y2 * cos psi1)).
Proof.
  rewrite cos_plus, sin_plus.
  pose proof (sin2_cos2 psi1) as Hsc. unfold Rsqr in Hsc.
  replace (cos psi2 * (cos psi1 * (wx - x1) + sin psi1 * (wy - y1) - x2)
           + sin psi2 * (- sin psi1 * (wx - x1) + cos psi1 * (wy - y1) - y2))
    with (cos psi2 * (cos psi1 * (wx - x1) + sin psi1 * (wy - y1))
          + sin psi2 * (- sin psi1 * (wx - x1) + cos psi1 * (wy - y1))
          - 1 * (cos psi2 * x2 + sin psi2 * y2))
    by ring.
  rewrite <- Hsc. ring.
Qed.

Lemma compose_local_y (wx wy : R) :
  - sin psi2 * (cos psi1 * (wx - x1) + sin psi1 * (wy - y1) - x2)
  + cos psi2 * (- sin psi1 * (wx - x1) + cos psi1 * (wy - y1) - y2)
  = - sin (psi1 + psi2) * (wx - (x1 + x2 * cos psi1 - y2 * sin psi1))
    + cos (psi1 + psi2) * (wy - (y1 + x2 * sin psi1 + y2 * cos psi1)).
Proof.
  rewrite cos_plus, sin_plus.
  pose proof (sin2_cos2 psi1) as Hsc. unfold Rsqr in Hsc.
  replace (- sin psi2 * (cos psi1 * (wx - x1) + sin psi1 * (wy - y1) - x2)
           + cos psi2 * (- sin psi1 * (wx - x1) + cos psi1 * (wy - y1) - y2))
    with (- sin psi2 * (cos psi1 * (wx - x1) + sin psi1 * (wy - y1))
          + cos psi2 * (- sin psi1 * (wx - x1) + cos psi1 * (wy - y1))
          - 1 * (- sin psi2 * x2 + cos psi2 * y2))
    by ring.
  rewrite <- Hsc. ring.
Qed.

End FrameComposition.

(** X15: frame transforms compose: transforming waypoints into the frame
    of a first pose, and the result into the frame of a second pose given
    in the first frame, is the transform into the frame of the composed
    pose (the second pose expressed in the world, headings added). *)
Theorem convertToCoordinates_composes :
  forall (x1 y1 psi1 x2 y2 psi2 : R) (ptsx ptsy : list R),
    length ptsx = length ptsy ->
    exists m1 : MatrixXd,
      convertToCoordinates x1 y1 psi1 ptsx ptsy = Done m1
      /\ convertToCoordinates x2 y2 psi2 (row m1 0) (row m1 1)
         = convertToCoordinates
             (x1 + x2 * cos psi1 - y2 * sin psi1)
             (y1 + x2 * sin psi1 + y2 * cos psi1)
             (psi1 + psi2) ptsx ptsy.
Proof.
  intros x1 y1 psi1 x2 y2 psi2 ptsx ptsy same_size.
  eexists. split; [ apply convertToCoordinates_done; exact same_size | ].
  unfold row. simpl nth.
  rewrite !convertToCoordinates_done
    by (rewrite ?pathpoints_row0_length, ?pathpoints_row1_length;
        congruence).
  f_equal. f_equal; [ | f_equal ].
  - apply list_eq_by_at.
    + now rewrite !pathpoints_row0_length.
    + intros i Hi. rewrite !pathpoints_row0_length in Hi.
      rewrite (pathpoints_row0_at x2 y2 psi2)
        by (now rewrite pathpoints_row0_length).
      rewrite (pathpoints_row0_at x1 y1 psi1 ptsx ptsy i Hi).
      rewrite (pathpoints_row1_at x1 y1 psi1 ptsx ptsy i Hi).
      rewrite (pathpoints_row0_at _ _ (psi1 + psi2) ptsx ptsy i Hi).
      apply compose_local_x.
  - apply list_eq_by_at.
    + now rewrite !pathpoints_row1_length, pathpoints_row0_length.
    + intros i Hi.
      rewrite pathpoints_row1_length, pathpoints_row0_length in Hi.
      rewrite (pathpoints_row1_at x2 y2 psi2)
        by (now rewrite pathpoints_row0_length).
      rewrite (pathpoints_row0_at x1 y1 psi1 ptsx ptsy i Hi).
      rewrite (pathpoints_row1_at x1 y1 psi1 ptsx ptsy i Hi).
      rewrite (pathpoints_row1_at _ _ (psi1 + psi2) ptsx ptsy i Hi).
      apply compose_local_y.
Qed.

Lemma convertToCoordinates_composes_witness :
  exists m1 : MatrixXd,
    convertToCoordinates 1 2 (PI / 6) [3; 5] [4; 6] = Done m1
    /\ convertToCoordinates 2 0 (PI / 3) (row m1 0) (row m1 1)
       = convertToCoordinates
           (1 + 2 * cos (PI / 6) - 0 * sin (PI / 6))
           (2 + 2 * sin (PI / 6) + 0 * cos (PI / 6))
           (PI / 6 + PI / 3) [3; 5] [4; 6].
Proof.
  apply (convertToCoordinates_composes 1 2 (PI / 6) 2 0 (PI / 3)
                                        [3; 5] [4; 6]).
  reflexivity.
Defined.
